(** * CampaignAnalytics: the analytics page of the call-campaign dashboard

    A shallow embedding of [src/components/CampaignAnalytics.tsx]: the data
    loader hook [useCampaignData], the aggregates computed by the page
    container, the sort and export handlers of [CallLogTable], and the
    properties of the specification that concern them.

    Conventions of the embedding.
    - A finite JavaScript number is modelled by the rational it denotes
      ([Q]); the rounding of floating-point additions is not modelled (no
      property below depends on it).  The non-finite results a division can
      produce are kept apart, see [number].
    - A nullable field of a record delivered by the data store is an
      [option]: [None] stands for [null].
    - Arrays live in a store ([gmap loc (list CallLog)]) and the component
      state holds their locations, so that aliasing between the [callLogs]
      prop and the [sortedLogs] state is visible. *)

From Stdlib Require Import QArith Qabs Qround Lqa.
From Stdlib Require Import Sorted Permutation.
From Stdlib Require Import Ascii DecimalString.
From Stdlib Require DecimalN DecimalPos.
From stdpp Require Import gmap strings list.

Local Open Scope Z_scope.

(** ** JavaScript values used by the page *)

Module JS.

(** Result of a numeric operation: a finite value, [NaN], or a signed
    infinity. *)
Inductive number : Type :=
| Num (q : Q)
| NaN
| Infinity (negative : bool).

(** [x / y] on finite operands ([y] is never a negative zero here: it is
    an array length). *)
Definition div (x y : Q) : number :=
  if Qeq_bool y 0 then
    if Qeq_bool x 0 then NaN else Infinity (negb (Qle_bool 0 x))
  else Num (x / y).

(** [v || d] for a nullable number: [null] and [0] are falsy. *)
Definition num_or (v : option Q) (d : Q) : Q :=
  match v with
  | Some q => if Qeq_bool q 0 then d else q
  | None => d
  end.

(** [v || d] for a nullable string: [null] and the empty string are
    falsy. *)
Definition str_or (v : option string) (d : string) : string :=
  match v with
  | Some s => if String.eqb s "" then d else s
  | None => d
  end.

(** Decimal digits of a natural number, ["0"] for zero. *)
Definition digits (n : N) : string :=
  NilZero.string_of_uint (N.to_uint n).

Fixpoint zeros (k : nat) : string :=
  match k with
  | O => ""
  | S k' => "0" +:+ zeros k'
  end.

(** [Number.prototype.toFixed(2)] on a finite value below 10^21 (above
    it the method switches to exponent notation, which call durations in
    seconds never reach).  Following ECMA-262: the sign is taken off
    first, [n] is the integer with [n / 100] closest to the value (the
    larger one on a tie), its digits are left-padded with zeros to three
    characters and the point is put before the last two. *)
Definition toFixed2_finite (x : Q) : string :=
  let s := if Qle_bool 0 x then "" else "-" in
  let a := Qabs x in
  let n := Z.to_N (Qfloor (a * 100 + (1 # 2))) in
  let m := digits n in
  let k := String.length m in
  let m := if (k <=? 2)%nat then zeros (3 - k) +:+ m else m in
  let k := String.length m in
  s +:+ String.substring 0 (k - 2) m +:+ "." +:+ String.substring (k - 2) 2 m.

Definition toFixed2 (x : number) : string :=
  match x with
  | Num q => toFixed2_finite q
  | NaN => "NaN"
  | Infinity false => "Infinity"
  | Infinity true => "-Infinity"
  end.

End JS.

(** ** Data model *)

(** Modelled from the spec: the [CallLog] type is declared in [utils/db],
    which is not part of the sources at hand.  The fields are those the
    component reads; disconnection reason, duration, sentiment, start time,
    summary, transcript and recording URL may be missing. *)
Record CallLog : Type := mkCallLog {
  id : option Z;
  phoneNumber : string;
  firstName : string;
  callId : string;
  disconnection_reason : option string;
  call_duration : option Q;
  user_sentiment : option string;
  start_time : option string;
  call_summary : option string;
  call_transcript : option string;
  call_recording : option string
}.

(** ** Aggregates computed by the page container *)

Definition totalCalls (callLogs : list CallLog) : Z :=
  Z.of_nat (List.length callLogs).

(** [log.disconnection_reason === 'completed'] *)
Definition is_completed (log : CallLog) : bool :=
  match disconnection_reason log with
  | Some r => String.eqb r "completed"
  | None => false
  end.

Definition answeredCalls (callLogs : list CallLog) : Z :=
  Z.of_nat (List.length (List.filter is_completed callLogs)).

Definition unansweredCalls (callLogs : list CallLog) : Z :=
  totalCalls callLogs - answeredCalls callLogs.

(** [callLogs.reduce((sum, log) => sum + (log.call_duration || 0), 0)] *)
Definition durationSum (callLogs : list CallLog) : Q :=
  fold_left (fun sum log => (sum + JS.num_or (call_duration log) 0)%Q)
            callLogs 0%Q.

Definition averageCallDuration (callLogs : list CallLog) : JS.number :=
  JS.div (durationSum callLogs) (inject_Z (totalCalls callLogs)).

(** The value handed to the "Avg. Call Duration" stat card. *)
Definition averageLabel (callLogs : list CallLog) : string :=
  JS.toFixed2 (averageCallDuration callLogs) +:+ " sec".

(** ** Grouped counts

    The two breakdowns are accumulated in a plain object used as a map.
    An object is modelled by its own string-keyed properties in creation
    order.  Labels that name a member inherited from [Object.prototype]
    (such as ["constructor"]) are outside the model: for them [acc[label]]
    would not start from [undefined]. *)

Module Obj.

Definition t : Type := list (string * Z).

(** [o[k]] *)
Fixpoint get (o : t) (k : string) : option Z :=
  match o with
  | [] => None
  | (k', v) :: o' => if String.eqb k' k then Some v else get o' k
  end.

(** [o[k] = v]: an existing property keeps its place, a new one is
    created after all the others. *)
Fixpoint set (o : t) (k : string) (v : Z) : t :=
  match o with
  | [] => [(k, v)]
  | (k', v') :: o' =>
      if String.eqb k' k then (k', v) :: o' else (k', v') :: set o' k v
  end.

(** A key is an array index when it is the canonical decimal form of an
    integer in [0, 2^32 - 2]. *)
Definition array_index (k : string) : option N :=
  match NilZero.uint_of_string k with
  | Some u =>
      let n := N.of_uint u in
      if String.eqb (JS.digits n) k && (n <? 2 ^ 32 - 1)%N
      then Some n else None
  | None => None
  end.

Fixpoint insert_index (e : N * (string * Z)) (l : list (N * (string * Z)))
  : list (N * (string * Z)) :=
  match l with
  | [] => [e]
  | e' :: l' =>
      if (fst e <=? fst e')%N then e :: l else e' :: insert_index e l'
  end.

Definition indexed (o : t) : list (N * (string * Z)) :=
  flat_map (fun kv => match array_index (fst kv) with
                      | Some n => [(n, kv)]
                      | None => []
                      end) o.

Definition named (o : t) : t :=
  List.filter (fun kv => match array_index (fst kv) with
                         | Some _ => false
                         | None => true
                         end) o.

(** [Object.entries(o)]: array-index keys first, in ascending numeric
    order, then the other keys in creation order. *)
Definition entries (o : t) : list (string * Z) :=
  List.map snd (fold_right insert_index [] (indexed o)) ++ named o.

End Obj.

(** [(acc[label] || 0) + 1] stored back under [label]. *)
Definition count_label (acc : Obj.t) (label : string) : Obj.t :=
  let old := match Obj.get acc label with
             | Some v => if v =? 0 then 0 else v
             | None => 0
             end in
  Obj.set acc label (old + 1).

Definition disconnectionReasonData (callLogs : list CallLog) : Obj.t :=
  fold_left (fun acc log =>
               count_label acc (JS.str_or (disconnection_reason log) "Unknown"))
            callLogs [].

Definition sentimentData (callLogs : list CallLog) : Obj.t :=
  fold_left (fun acc log =>
               count_label acc (JS.str_or (user_sentiment log) "Unknown"))
            callLogs [].

Record ChartDatum : Type := mkDatum { name : string; value : Z }.

Definition chartData (o : Obj.t) : list ChartDatum :=
  List.map (fun '(name, value) => mkDatum name value) (Obj.entries o).

Definition disconnectionReasonChartData (callLogs : list CallLog)
  : list ChartDatum :=
  chartData (disconnectionReasonData callLogs).

Definition sentimentChartData (callLogs : list CallLog) : list ChartDatum :=
  chartData (sentimentData callLogs).

(** ** The data loader hook *)

Module UseCampaignData.

(** Modelled from the spec: the campaign record of [utils/db]; only its
    title is read. *)
Record Campaign : Type := mkCampaign { campaign_id : Z; title : string }.

(** The four pieces of state the hook returns. *)
Record hook : Type := mkHook {
  callLogs : list CallLog;
  campaignTitle : string;
  loading : bool;
  error : option string
}.

(** The hook together with its environment: the joint requests
    ([Promise.all] of [getCallLogs] and [getCampaign]) still in flight,
    each with the numeric argument it was made with ([None] for [NaN]),
    and the number of joint requests issued so far. *)
Record world : Type := mkWorld {
  state : hook;
  inflight : list (option Z);
  issued : nat
}.

(** [useState] initial values. *)
Definition init : world :=
  mkWorld (mkHook [] "" true None) [] 0.

Definition is_space (c : Ascii.ascii) : bool :=
  let n := Ascii.nat_of_ascii c in
  ((n =? 32) || ((9 <=? n) && (n <=? 13)))%nat.

Fixpoint trim_start (s : string) : string :=
  match s with
  | String c r => if is_space c then trim_start r else s
  | EmptyString => s
  end.

Definition digit_of (c : Ascii.ascii) : option Z :=
  let n := Ascii.nat_of_ascii c in
  if ((48 <=? n) && (n <=? 57))%nat then Some (Z.of_nat n - 48) else None.

(** Value of the longest prefix of decimal digits, [None] when there is
    no digit. *)
Fixpoint digit_prefix (s : string) (acc : option Z) : option Z :=
  match s with
  | String c r =>
      match digit_of c with
      | Some d => digit_prefix r (Some (10 * default 0 acc + d))
      | None => acc
      end
  | EmptyString => acc
  end.

(** [parseInt(s, 10)]: leading (ASCII) white space is dropped, a sign is
    read, then as many digits as there are; [None] is [NaN]. *)
Definition parseInt10 (s : string) : option Z :=
  match trim_start s with
  | String "-"%char r => Z.opp <$> digit_prefix r None
  | String "+"%char r => digit_prefix r None
  | r => digit_prefix r None
  end.

(** How a joint request settles. *)
Inductive outcome : Type :=
| Fulfilled (logs : list CallLog) (campaign : option Campaign)
| Rejected.

Inductive event : Type :=
| Effect (id : option string)   (* mount, or the [id] dependency changed *)
| Settled (i : nat) (o : outcome). (* the [i]-th request in flight settles *)

(** [if (id)] on [string | undefined]. *)
Definition truthy (id : option string) : option string :=
  match id with
  | Some s => if String.eqb s "" then None else Some s
  | None => None
  end.

(** Continuation of [fetchData] after the [await]. *)
Definition settle (o : outcome) (h : hook) : hook :=
  match o with
  | Fulfilled logs campaign =>
      mkHook logs (JS.str_or (title <$> campaign) "Campaign")
             false (error h)
  | Rejected =>
      mkHook (callLogs h) (campaignTitle h) false
             (Some "Failed to load campaign data. Please try again.")
  end.

(** One step of the hook; [None] when the event cannot happen (no such
    request in flight). *)
Definition step (w : world) (e : event) : option world :=
  match e with
  | Effect id =>
      match truthy id with
      | Some s =>
          Some (mkWorld (state w) (inflight w ++ [parseInt10 s])
                        (S (issued w)))
      | None => Some w
      end
  | Settled i o =>
      match inflight w !! i with
      | Some _ =>
          Some (mkWorld (settle o (state w)) (delete i (inflight w))
                        (issued w))
      | None => None
      end
  end.

Fixpoint run (w : world) (es : list event) : option world :=
  match es with
  | [] => Some w
  | e :: es' =>
      match step w e with
      | Some w' => run w' es'
      | None => None
      end
  end.

(** The events during which the campaign identifier is undefined: the
    effect never runs with an identifier. *)
Definition undefined_id (e : event) : Prop :=
  match e with
  | Effect (Some _) => False
  | _ => True
  end.

End UseCampaignData.

(** ** The page container *)

Record Dashboard : Type := mkDashboard {
  heading : string;
  statTotal : Z;
  statAnswered : Z;
  statUnanswered : Z;
  statAverage : string;
  reasonChart : list ChartDatum;
  sentimentChart : list ChartDatum;
  tableLogs : list CallLog
}.

Inductive view : Type :=
| LoadingIndicator
| ErrorPanel (message : string)
| Page (d : Dashboard).

Definition dashboard (campaignTitle : string) (callLogs : list CallLog)
  : Dashboard :=
  mkDashboard (campaignTitle +:+ " Analytics")
              (totalCalls callLogs)
              (answeredCalls callLogs)
              (unansweredCalls callLogs)
              (averageLabel callLogs)
              (disconnectionReasonChartData callLogs)
              (sentimentChartData callLogs)
              callLogs.

(** What [CampaignAnalytics] returns for a state of the hook (the details
    modal, which depends on the selection only, is left out). *)
Definition CampaignAnalytics (h : UseCampaignData.hook) : view :=
  if UseCampaignData.loading h then LoadingIndicator
  else
    match UseCampaignData.error h with
    | Some e =>
        if String.eqb e ""
        then Page (dashboard (UseCampaignData.campaignTitle h)
                             (UseCampaignData.callLogs h))
        else ErrorPanel e
    | None => Page (dashboard (UseCampaignData.campaignTitle h)
                              (UseCampaignData.callLogs h))
    end.

(** ** [Array.prototype.sort]

    ECMA-262 requires the sort to be stable.  With a consistent comparator
    the result is then determined: the permutation of the array that the
    comparator orders, elements that compare equal keeping their relative
    order ([stable_sort_unique] below).  Insertion from the right is the
    representative taken here; [compareFn a b <= 0] keeps [a] before [b]. *)

Section ArraySort.

Context {A : Type}.
Variable compareFn : A -> A -> Q.

Fixpoint insert_sorted (x : A) (l : list A) : list A :=
  match l with
  | [] => [x]
  | y :: l' =>
      if Qle_bool (compareFn x y) 0 then x :: l
      else y :: insert_sorted x l'
  end.

Definition sort (l : list A) : list A :=
  fold_right insert_sorted [] l.

End ArraySort.

(** ** The table of call logs *)

Module CallLogTable.

Definition loc : Type := positive.

Inductive dir : Type := asc | desc.

(** The component: the [callLogs] prop and the [sortedLogs] state are
    references into the store of arrays; [direction] is
    [sortConfig.direction] ([None] for [null]), the key of [sortConfig]
    being the constant ['call_duration']. *)
Record state : Type := mkState {
  store : gmap loc (list CallLog);
  callLogs : loc;
  sortedLogs : loc;
  direction : option dir
}.

(** A new array holding [v]. *)
Definition alloc (σ : gmap loc (list CallLog)) (v : list CallLog)
  : loc * gmap loc (list CallLog) :=
  let l := fresh (dom σ) in (l, <[l := v]> σ).

(** First render with the array at [l] as prop: [useState(callLogs)] and
    [direction: null]. *)
Definition mount (σ : gmap loc (list CallLog)) (l : loc) : state :=
  mkState σ l l None.

(** First render with a newly fetched array. *)
Definition mount_with (logs : list CallLog) : state :=
  let '(l, σ) := alloc ∅ logs in mount σ l.

(** A render with the array at [l] as [callLogs].  When this is another
    array than before, the effect that depends on [callLogs] runs
    [setSortedLogs(callLogs)]; with the same array nothing happens. *)
Definition receive (l : loc) (st : state) : state :=
  if decide (l = callLogs st) then st
  else mkState (store st) l l (direction st).

(** A render with a newly fetched array, which is never the array held
    before: the effect runs. *)
Definition receive_logs (logs : list CallLog) (st : state) : state :=
  let '(l, σ) := alloc (store st) logs in
  mkState σ l l (direction st).

(** The rows of the table body, in display order. *)
Definition rows (st : state) : option (list CallLog) :=
  store st !! sortedLogs st.

(** The array handed over by the parent. *)
Definition fetched (st : state) : option (list CallLog) :=
  store st !! callLogs st.

(** The sort key, [log.call_duration || 0]. *)
Definition duration_key (log : CallLog) : Q :=
  JS.num_or (call_duration log) 0.

(** The comparator passed to [sort]. *)
Definition compare (direction : dir) (a b : CallLog) : Q :=
  let aValue := duration_key a in
  let bValue := duration_key b in
  match direction with
  | asc => aValue - bValue
  | desc => bValue - aValue
  end.

Definition next_direction (d : option dir) : option dir :=
  match d with
  | Some asc => Some desc
  | Some desc => None
  | None => Some asc
  end.

(** [handleSort]: [None] only if [sortedLogs] dangles. *)
Definition handleSort (st : state) : option state :=
  let direction := next_direction (direction st) in
  match store st !! sortedLogs st with
  | Some current =>
      (* let sortedData = [...sortedLogs] *)
      let '(sortedData, σ) := alloc (store st) current in
      match direction with
      | None => Some (mkState σ (callLogs st) (callLogs st) direction)
      | Some d =>
          (* sortedData.sort(...) works in place *)
          let σ' := alter (sort (compare d)) sortedData σ in
          Some (mkState σ' (callLogs st) sortedData direction)
      end
  | None => None
  end.

(** [n] activations of the sort control in a row. *)
Fixpoint activate (n : nat) (st : state) : option state :=
  match n with
  | O => Some st
  | S n' =>
      match handleSort st with
      | Some st' => activate n' st'
      | None => None
      end
  end.

(** *** Export *)

Inductive jsval : Type :=
| Undefined
| Null
| Str (s : string).

Definition of_nullable (v : option string) : jsval :=
  match v with
  | Some s => Str s
  | None => Null
  end.

(** [log.call_duration?.toFixed(2)] *)
Definition duration_cell (v : option Q) : jsval :=
  match v with
  | Some q => Str (JS.toFixed2_finite q)
  | None => Undefined
  end.

(** One record of [exportData]: the properties in creation order, which
    is the order of the columns. *)
Definition exportRecord (log : CallLog) : list (string * jsval) :=
  [ ("Phone Number", Str (phoneNumber log));
    ("First Name", Str (firstName log));
    ("Call ID", Str (callId log));
    ("Disconnection Reason",
      Str (JS.str_or (disconnection_reason log) "N/A"));
    ("Duration (sec)", duration_cell (call_duration log));
    ("Sentiment", of_nullable (user_sentiment log));
    ("Start Time", of_nullable (start_time log));
    ("Call Summary", of_nullable (call_summary log));
    ("Call Transcript", of_nullable (call_transcript log));
    ("Call Recording URL", of_nullable (call_recording log)) ].

(** The value of a column in a record. *)
Fixpoint field (r : list (string * jsval)) (k : string) : jsval :=
  match r with
  | [] => Undefined
  | (k', v) :: r' => if String.eqb k' k then v else field r' k
  end.

(** [s.split('T')[0]] *)
Fixpoint before_T (s : string) : string :=
  match s with
  | String c r => if Ascii.eqb c "T" then "" else String c (before_T r)
  | EmptyString => ""
  end.

Record workbook : Type := mkWorkbook {
  fileName : string;
  sheetName : string;
  records : list (list (string * jsval))
}.

(** [handleExport], [now] being [new Date().toISOString()]; the result is
    the workbook handed to [XLSX.writeFile]. *)
Definition handleExport (now : string) (st : state) : option workbook :=
  match store st !! sortedLogs st with
  | Some shown =>
      let exportData := List.map exportRecord shown in
      Some (mkWorkbook ("call_logs_" +:+ before_T now +:+ ".xlsx")
                       "Call Logs" exportData)
  | None => None
  end.

(** *** Vocabulary of the properties *)

(** [a] may stand before [b] in a list sorted in direction [d]. *)
Definition ordered (d : dir) (a b : CallLog) : Prop :=
  match d with
  | asc => (duration_key a <= duration_key b)%Q
  | desc => (duration_key b <= duration_key a)%Q
  end.

(** The logs of [l] whose key is [k], in the order they have in [l]. *)
Definition ties (k : Q) (l : list CallLog) : list CallLog :=
  List.filter (fun a => Qeq_bool (duration_key a) k) l.

(** The specification's stable sort by duration: [out] rearranges [src],
    is ordered in direction [d], and logs with equal keys stand in [out]
    as they stand in [src]. *)
Definition stable_sort_of (d : dir) (src out : list CallLog) : Prop :=
  Permutation src out /\
  StronglySorted (ordered d) out /\
  forall k, ties k out = ties k src.

(** The states the component can be in: it is mounted with an array of
    the store, the sort control is activated, or the parent passes
    another array (one already in the store, or a newly fetched one). *)
Inductive reachable : state -> Prop :=
| reach_mount σ l :
    is_Some (σ !! l) -> reachable (mount σ l)
| reach_sort st st' :
    reachable st -> handleSort st = Some st' -> reachable st'
| reach_receive st l :
    reachable st -> is_Some (store st !! l) -> reachable (receive l st)
| reach_fetch st logs :
    reachable st -> reachable (receive_logs logs st).

(** The claim that every missing value of the seven nullable columns is
    exported as ["N/A"], for one log. *)
Definition missing_as_NA (log : CallLog) : Prop :=
  (disconnection_reason log = None ->
   field (exportRecord log) "Disconnection Reason" = Str "N/A") /\
  (call_duration log = None ->
   field (exportRecord log) "Duration (sec)" = Str "N/A") /\
  (user_sentiment log = None ->
   field (exportRecord log) "Sentiment" = Str "N/A") /\
  (start_time log = None ->
   field (exportRecord log) "Start Time" = Str "N/A") /\
  (call_summary log = None ->
   field (exportRecord log) "Call Summary" = Str "N/A") /\
  (call_transcript log = None ->
   field (exportRecord log) "Call Transcript" = Str "N/A") /\
  (call_recording log = None ->
   field (exportRecord log) "Call Recording URL" = Str "N/A").

End CallLogTable.

(** ** The table body, the details modal and the pie chart *)

Module TableBody.

(** What React shows for a value put between tags: nothing for [null]
    and [undefined]. *)
Definition text (v : CallLogTable.jsval) : string :=
  match v with
  | CallLogTable.Str s => s
  | _ => ""
  end.

(** One [<tr>]: its key [log.id || index], its six cells, and the log
    that a click on it passes to [onRowClick]. *)
Record row : Type := mkRow {
  key : Z;
  cells : list string;
  target : CallLog
}.

Definition renderRow (index : nat) (log : CallLog) : row :=
  mkRow (match id log with
         | Some n => if n =? 0 then Z.of_nat index else n
         | None => Z.of_nat index
         end)
        [ phoneNumber log;
          firstName log;
          callId log;
          JS.str_or (disconnection_reason log) "N/A";
          text (CallLogTable.duration_cell (call_duration log)) +:+ " sec";
          text (CallLogTable.of_nullable (user_sentiment log)) ]
        log.

(** [sortedLogs.map((log, index) => <tr ...>)] *)
Definition tbody (sortedLogs : list CallLog) : list row :=
  imap renderRow sortedLogs.

End TableBody.

Module Modal.

(** The texts of the details modal and the source of its audio player,
    if it has one. *)
Record details : Type := mkDetails {
  phone : string;
  first : string;
  call : string;
  reason : string;
  start : string;
  summary : string;
  transcript : string;
  audio : option string
}.

(** [CallDetailsModal]: [None] when it returns [null]. *)
Definition CallDetailsModal (callLog : option CallLog) : option details :=
  match callLog with
  | None => None
  | Some log =>
      Some (mkDetails
              (phoneNumber log) (firstName log) (callId log)
              (JS.str_or (disconnection_reason log) "N/A")
              (JS.str_or (start_time log) "N/A")
              (JS.str_or (call_summary log) "No summary available")
              (JS.str_or (call_transcript log) "No transcript available")
              (match call_recording log with
               | Some url => if String.eqb url "" then None else Some url
               | None => None
               end))
  end.

(** What the user does with the selection. *)
Inductive action : Type :=
| RowClick (log : CallLog)   (* [onRowClick], that is [setSelectedCallLog] *)
| Close.                     (* [onClose] *)

Definition select (selectedCallLog : option CallLog) (a : action)
  : option CallLog :=
  match a with
  | RowClick log => Some log
  | Close => None
  end.

(** The modal on the page after the actions [as_], starting from
    [useState(null)]: [selectedCallLog && <CallDetailsModal ... />]. *)
Definition shown (as_ : list action) : option details :=
  match fold_left select as_ None with
  | Some log => CallDetailsModal (Some log)
  | None => None
  end.

End Modal.

Module PieChart.

Definition COLORS : list string :=
  ["#0088FE"; "#00C49F"; "#FFBB28"; "#FF8042"; "#8884D8"; "#FF6B6B"].

(** [COLORS[index % COLORS.length]], [None] for [undefined]. *)
Definition fill (index : nat) : option string :=
  COLORS !! (index mod List.length COLORS)%nat.

(** The fills of the cells of a chart, one per datum. *)
Definition cells (data : list ChartDatum) : list (option string) :=
  imap (fun index _ => fill index) data.

End PieChart.

(** ** Vocabulary of the further properties *)

(** The events of the loader that settle a request, those that reject
    one, and those that issue one. *)
Definition is_settled (e : UseCampaignData.event) : bool :=
  match e with
  | UseCampaignData.Settled _ _ => true
  | _ => false
  end.

Definition is_rejected (e : UseCampaignData.event) : bool :=
  match e with
  | UseCampaignData.Settled _ UseCampaignData.Rejected => true
  | _ => false
  end.

Definition issues_request (e : UseCampaignData.event) : bool :=
  match e with
  | UseCampaignData.Effect id =>
      match UseCampaignData.truthy id with
      | Some _ => true
      | None => false
      end
  | _ => false
  end.

(** The labels under which the two breakdowns count a log. *)
Definition reason_label (log : CallLog) : string :=
  JS.str_or (disconnection_reason log) "Unknown".

Definition sentiment_label (log : CallLog) : string :=
  JS.str_or (user_sentiment log) "Unknown".

(** How many of the logs carry the label [k]. *)
Definition labelled (label : CallLog -> string) (k : string)
  (callLogs : list CallLog) : Z :=
  Z.of_nat (List.length
              (List.filter (fun log => String.eqb (label log) k) callLogs)).



(** ** Sample data *)

Definition sample_log (cid : string) (reason : option string)
  (duration : option Q) : CallLog :=
  mkCallLog None "+15550100" "Ada" cid reason duration
            None None None None None.

(** Durations 3, null, 1, 3, 0, 1: the keys 3, 1 and 0 occur twice each. *)
Definition sample_logs : list CallLog :=
  [ sample_log "a" (Some "completed") (Some (3 # 1));
    sample_log "b" None None;
    sample_log "c" (Some "Completed") (Some (1 # 1));
    sample_log "d" (Some "no-answer") (Some (3 # 1));
    sample_log "e" (Some "completed") (Some (0 # 1));
    sample_log "f" (Some "") (Some (1 # 1)) ].

(** The table after it was mounted with [sample_logs] and the sort control
    was activated once. *)
Definition sample_sorted : CallLogTable.state :=
  default (CallLogTable.mount_with sample_logs)
          (CallLogTable.handleSort (CallLogTable.mount_with sample_logs)).

(** * Properties *)

(** ** Facts about the sort *)

Section SortFacts.

Context {A : Type} (cmp : A -> A -> Q).

Lemma insert_sorted_perm (x : A) (l : list A) :
  Permutation (x :: l) (insert_sorted cmp x l).
Proof.
  induction l as [|y l IH]; simpl.
  - apply Permutation_refl.
  - destruct (Qle_bool (cmp x y) 0).
    + apply Permutation_refl.
    + eapply perm_trans; [apply perm_swap|]. by apply perm_skip.
Qed.

Lemma sort_perm (l : list A) : Permutation l (sort cmp l).
Proof.
  induction l as [|x l IH]; simpl; [constructor|].
  eapply perm_trans; [|apply insert_sorted_perm]. by apply perm_skip.
Qed.

Section Order.

Variable R : A -> A -> Prop.
Hypothesis R_trans : forall x y z, R x y -> R y z -> R x z.
Hypothesis R_le : forall x y, Qle_bool (cmp x y) 0 = true -> R x y.
Hypothesis R_gt : forall x y, Qle_bool (cmp x y) 0 = false -> R y x.

Lemma insert_sorted_ordered (x : A) (l : list A) :
  StronglySorted R l -> StronglySorted R (insert_sorted cmp x l).
Proof.
  induction 1 as [|y l Hl IH Hy]; simpl.
  - repeat constructor.
  - destruct (Qle_bool (cmp x y) 0) eqn:E.
    + constructor; [by constructor|].
      constructor; [by apply R_le|].
      eapply Forall_impl; [apply Hy|]. intros z Hz.
      eapply R_trans; [apply R_le, E | exact Hz].
    + constructor; [exact IH|].
      eapply Permutation_Forall; [apply insert_sorted_perm|].
      constructor; [by apply R_gt | exact Hy].
Qed.

Lemma sort_ordered (l : list A) : StronglySorted R (sort cmp l).
Proof.
  induction l as [|x l IH]; simpl; [constructor|].
  by apply insert_sorted_ordered.
Qed.

End Order.

Section Ties.

(** A class of elements that the comparator never lets overtake one
    another. *)
Variable p : A -> bool.
Hypothesis p_tie :
  forall x y, p x = true -> p y = true -> Qle_bool (cmp x y) 0 = true.

Lemma insert_sorted_ties (x : A) (l : list A) :
  List.filter p (insert_sorted cmp x l) = List.filter p (x :: l).
Proof.
  induction l as [|y l IH]; [reflexivity|].
  cbn [insert_sorted]. destruct (Qle_bool (cmp x y) 0) eqn:E;
    [reflexivity|].
  cbn [List.filter] in *. rewrite IH.
  destruct (p x) eqn:Px, (p y) eqn:Py; try reflexivity.
  rewrite (p_tie x y Px Py) in E. discriminate.
Qed.

Lemma sort_ties (l : list A) :
  List.filter p (sort cmp l) = List.filter p l.
Proof.
  induction l as [|x l IH]; [reflexivity|].
  cbn [sort fold_right]. rewrite insert_sorted_ties.
  cbn [List.filter]. fold (sort cmp l). by rewrite IH.
Qed.

End Ties.

End SortFacts.

(** ** Facts about the table *)

Section TableFacts.

Import CallLogTable.

(** The sample table is reachable, as mounted and after one activation. *)
Local Ltac mounted :=
  apply reach_mount; vm_compute; eexists; reflexivity.
Local Ltac sorted_once :=
  apply (reach_sort (mount_with sample_logs));
  [mounted | vm_compute; reflexivity].

Lemma alloc_fresh (σ : gmap loc (list CallLog)) (v : list CallLog) :
  σ !! (alloc σ v).1 = None.
Proof. apply not_elem_of_dom, is_fresh. Qed.

Lemma compare_le_ordered (d : dir) (a b : CallLog) :
  Qle_bool (compare d a b) 0 = true -> ordered d a b.
Proof.
  rewrite Qle_bool_iff. destruct d; unfold compare, ordered; lra.
Qed.

Lemma compare_gt_ordered (d : dir) (a b : CallLog) :
  Qle_bool (compare d a b) 0 = false -> ordered d b a.
Proof.
  intros E.
  assert (~ (compare d a b <= 0)%Q) as H
    by (rewrite <- Qle_bool_iff, E; discriminate).
  destruct d; unfold compare, ordered in *; lra.
Qed.

Lemma ordered_trans (d : dir) (a b c : CallLog) :
  ordered d a b -> ordered d b c -> ordered d a c.
Proof. destruct d; unfold ordered; lra. Qed.

Lemma ordered_antisym (d : dir) (a b : CallLog) :
  ordered d a b -> ordered d b a -> (duration_key a == duration_key b)%Q.
Proof. destruct d; unfold ordered; lra. Qed.

Lemma compare_tie (d : dir) (k : Q) (x y : CallLog) :
  Qeq_bool (duration_key x) k = true ->
  Qeq_bool (duration_key y) k = true ->
  Qle_bool (compare d x y) 0 = true.
Proof.
  rewrite !Qeq_bool_iff, Qle_bool_iff.
  destruct d; unfold compare; lra.
Qed.

Lemma sort_ties_compare (d : dir) (k : Q) (l : list CallLog) :
  ties k (sort (compare d) l) = ties k l.
Proof. apply sort_ties. intros x y. apply compare_tie. Qed.

Lemma sort_ordered_compare (d : dir) (l : list CallLog) :
  StronglySorted (ordered d) (sort (compare d) l).
Proof.
  apply sort_ordered.
  - apply ordered_trans.
  - apply compare_le_ordered.
  - apply compare_gt_ordered.
Qed.

(** Sorting a rearrangement of [src] that kept the ties of [src] in place
    is a stable sort of [src]. *)
Lemma sort_stable_sort_of (d : dir) (src shown : list CallLog) :
  Permutation src shown ->
  (forall k, ties k shown = ties k src) ->
  stable_sort_of d src (sort (compare d) shown).
Proof.
  intros HP HT. split; [|split].
  - eapply perm_trans; [exact HP | apply sort_perm].
  - apply sort_ordered_compare.
  - intros k. by rewrite sort_ties_compare.
Qed.

Lemma ties_head_In (x : CallLog) (l1 l2 : list CallLog) :
  ties (duration_key x) (x :: l1) = ties (duration_key x) l2 ->
  In x l2.
Proof.
  unfold ties. cbn [List.filter]. rewrite Qeq_bool_refl. intros E.
  assert (In x (List.filter
                  (fun a => Qeq_bool (duration_key a) (duration_key x)) l2))
    as H by (rewrite <- E; by left).
  by apply filter_In in H as [H _].
Qed.

Lemma sorted_head_ordered (d : dir) (y x : CallLog) (l : list CallLog) :
  StronglySorted (ordered d) (y :: l) -> In x (y :: l) ->
  ordered d y x.
Proof.
  intros HS [->|Hin].
  - destruct d; unfold ordered; lra.
  - apply StronglySorted_inv in HS as [_ HF].
    rewrite Forall_forall in HF. by apply HF, list_elem_of_In.
Qed.

(** Two ordered lists with the same ties are the same list. *)
Lemma sorted_ties_eq (d : dir) (l1 l2 : list CallLog) :
  StronglySorted (ordered d) l1 -> StronglySorted (ordered d) l2 ->
  (forall k, ties k l1 = ties k l2) -> l1 = l2.
Proof.
  revert l2. induction l1 as [|x t1 IH]; intros [|y t2] S1 S2 HT.
  - reflexivity.
  - specialize (HT (duration_key y)). unfold ties in HT.
    cbn [List.filter] in HT. rewrite Qeq_bool_refl in HT. discriminate.
  - specialize (HT (duration_key x)). unfold ties in HT.
    cbn [List.filter] in HT. rewrite Qeq_bool_refl in HT. discriminate.
  - assert (duration_key x == duration_key y)%Q as Exy.
    { apply (ordered_antisym d).
      - apply (sorted_head_ordered d x y t1 S1).
        apply (ties_head_In y t2). symmetry. apply HT.
      - apply (sorted_head_ordered d y x t2 S2).
        apply (ties_head_In x t1). apply HT. }
    assert (x = y) as ->.
    { specialize (HT (duration_key x)). unfold ties in HT.
      cbn [List.filter] in HT. rewrite Qeq_bool_refl in HT.
      assert (Qeq_bool (duration_key y) (duration_key x) = true) as E
        by (apply Qeq_bool_iff; lra).
      rewrite E in HT. congruence. }
    f_equal. apply IH.
    + by apply StronglySorted_inv in S1 as [? _].
    + by apply StronglySorted_inv in S2 as [? _].
    + intros k. specialize (HT k). unfold ties in *.
      cbn [List.filter] in HT.
      destruct (Qeq_bool (duration_key y) k); congruence.
Qed.

(** The specification's stable sort determines its result. *)
Lemma stable_sort_unique (d : dir) (src o1 o2 : list CallLog) :
  stable_sort_of d src o1 -> stable_sort_of d src o2 -> o1 = o2.
Proof.
  intros (_ & S1 & T1) (_ & S2 & T2).
  apply (sorted_ties_eq d); [done | done |].
  intros k. by rewrite T1, T2.
Qed.

(** What one activation does to a state whose two references are
    allocated: every array of the store is left as it is, and the rows
    become the fetched array (direction [null]) or a sorted copy of the
    rows on display. *)
Lemma handleSort_spec (st : state) (src shown : list CallLog) :
  fetched st = Some src -> rows st = Some shown ->
  exists st',
    handleSort st = Some st' /\
    direction st' = next_direction (direction st) /\
    callLogs st' = callLogs st /\
    (forall l v, store st !! l = Some v -> store st' !! l = Some v) /\
    rows st' = Some match next_direction (direction st) with
                    | Some d => sort (compare d) shown
                    | None => src
                    end.
Proof.
  unfold fetched, rows, handleSort. intros Hsrc Hshown. rewrite Hshown.
  pose proof (alloc_fresh (store st) shown) as Hfresh.
  unfold alloc in *. cbn [fst] in Hfresh.
  set (l0 := fresh (dom (store st))) in *.
  assert (forall l v, store st !! l = Some v -> l0 <> l) as Hne
    by (intros l v Hl ->; congruence).
  destruct (next_direction (direction st)) as [d|];
    eexists; (split; [reflexivity|]); cbn [store callLogs sortedLogs
                                             CallLogTable.direction].
  - repeat split.
    + intros l v Hl.
      rewrite lookup_alter_ne, lookup_insert_ne by eauto. done.
    + by rewrite lookup_alter_eq, lookup_insert_eq.
  - repeat split.
    + intros l v Hl. rewrite lookup_insert_ne by eauto. done.
    + rewrite lookup_insert_ne by eauto. done.
Qed.

(** In every state the component can be in, both references are
    allocated and the rows are a rearrangement of the fetched array in
    which logs of equal duration keep their fetch order. *)
Lemma reachable_inv (st : state) :
  reachable st ->
  exists src shown,
    fetched st = Some src /\ rows st = Some shown /\
    Permutation src shown /\ forall k, ties k shown = ties k src.
Proof.
  induction 1 as [σ l [v Hv] | st st' _ IH Hs | st l _ IH [v Hv]
                 | st logs _ _].
  - exists v, v. by repeat split.
  - destruct IH as (src & shown & Hf & Hr & HP & HT).
    destruct (handleSort_spec st src shown Hf Hr)
      as (st2 & Hs2 & _ & Hc & Hkeep & Hrows).
    rewrite Hs in Hs2. injection Hs2 as <-.
    exists src. eexists. split; [|split; [exact Hrows|]].
    + unfold fetched in *. rewrite Hc. by apply Hkeep.
    + destruct (next_direction (direction st)) as [d|].
      * split; [eapply perm_trans; [exact HP | apply sort_perm]|].
        intros k. by rewrite sort_ties_compare.
      * by split.
  - unfold receive. case_decide; [exact IH|].
    exists v, v. by repeat split.
  - exists logs, logs. unfold fetched, rows, receive_logs, alloc.
    cbn. rewrite lookup_insert_eq. by repeat split.
Qed.

Lemma reachable_unsorted (st : state) :
  reachable st -> direction st = None -> sortedLogs st = callLogs st.
Proof.
  induction 1 as [σ l _ | st st' _ _ Hs | st l _ IH _ | st logs _ _];
    try reflexivity.
  2: { unfold receive. case_decide; [exact IH | reflexivity]. }
  unfold handleSort in Hs.
  destruct (store st !! sortedLogs st); [|discriminate].
  cbn in Hs. destruct (next_direction (direction st));
    injection Hs as <-; cbn; [discriminate | reflexivity].
Qed.

Lemma handleSort_reachable (st : state) :
  reachable st ->
  exists st' src,
    fetched st = Some src /\ handleSort st = Some st' /\
    reachable st' /\ direction st' = next_direction (direction st) /\
    callLogs st' = callLogs st /\ fetched st' = Some src /\
    forall l v, store st !! l = Some v -> store st' !! l = Some v.
Proof.
  intros Hst.
  destruct (reachable_inv st Hst) as (src & shown & Hf & Hr & _).
  destruct (handleSort_spec st src shown Hf Hr)
    as (st' & Hs & Hd & Hc & Hkeep & _).
  exists st', src. repeat split; try done.
  - by apply (reach_sort st).
  - unfold fetched in *. rewrite Hc. by apply Hkeep.
Qed.

(** C3. For every sort state, the export action produces exactly one
    record per row on display, in display order: the exported records
    are the rows mapped one by one, so their number is the number of
    rows and the record at each position is built from the row at that
    position. *)
Theorem export_follows_display (st : state) (now : string) :
  reachable st ->
  exists shown wb,
    rows st = Some shown /\
    handleExport now st = Some wb /\
    records wb = List.map exportRecord shown /\
    List.length (records wb) = List.length shown /\
    forall (i : nat) log,
      shown !! i = Some log -> records wb !! i = Some (exportRecord log).
Proof.
  intros Hst.
  destruct (reachable_inv st Hst) as (src & shown & _ & Hr & _).
  exists shown. eexists. split; [exact Hr|].
  unfold handleExport. unfold rows in Hr. rewrite Hr.
  split; [reflexivity|]. cbn [records].
  split; [reflexivity|]. split; [apply length_map|].
  intros i log Hi.
  change (List.map exportRecord shown) with (exportRecord <$> shown).
  by rewrite list_lookup_fmap, Hi.
Qed.

Lemma export_follows_display_witness :
  reachable sample_sorted /\
  exists shown wb,
    rows sample_sorted = Some shown /\
    handleExport "2024-05-06T07:08:09.000Z" sample_sorted = Some wb /\
    records wb = List.map exportRecord shown /\
    List.length (records wb) = List.length shown /\
    forall (i : nat) log,
      shown !! i = Some log -> records wb !! i = Some (exportRecord log).
Proof.
  assert (reachable sample_sorted) as H by sorted_once.
  split; [exact H|].
  apply (export_follows_display sample_sorted _ H).
Defined.

(** C4. From a state whose sort direction is [null] (the rows are then
    the fetched array), a first activation of the sort control gives
    direction [asc] and rows in non-decreasing duration, a missing
    duration counting as 0; a second gives [desc] and rows in
    non-increasing duration; a third gives [null] again and exactly the
    fetched order.  The rows are a rearrangement of the fetched array
    throughout. *)
Theorem sort_cycle (st : state) :
  reachable st -> direction st = None ->
  exists src s1 s2 s3 r1 r2,
    fetched st = Some src /\ rows st = Some src /\
    handleSort st = Some s1 /\ direction s1 = Some asc /\
    rows s1 = Some r1 /\ Permutation src r1 /\
    StronglySorted
      (fun a b => (duration_key a <= duration_key b)%Q) r1 /\
    handleSort s1 = Some s2 /\ direction s2 = Some desc /\
    rows s2 = Some r2 /\ Permutation src r2 /\
    StronglySorted
      (fun a b => (duration_key b <= duration_key a)%Q) r2 /\
    handleSort s2 = Some s3 /\ direction s3 = None /\
    rows s3 = Some src /\ fetched s3 = Some src.
Proof.
  intros Hst Hd.
  destruct (reachable_inv st Hst) as (src & shown & Hf & Hr & HP & HT).
  assert (shown = src) as ->.
  { unfold rows, fetched in *.
    rewrite (reachable_unsorted st Hst Hd) in Hr. congruence. }
  destruct (handleSort_spec st src src Hf Hr)
    as (s1 & Hs1 & Hd1 & Hc1 & Hk1 & Hr1).
  rewrite Hd in Hd1, Hr1. cbn in Hd1, Hr1.
  assert (fetched s1 = Some src) as Hf1
    by (unfold fetched in *; rewrite Hc1; by apply Hk1).
  destruct (handleSort_spec s1 src _ Hf1 Hr1)
    as (s2 & Hs2 & Hd2 & Hc2 & Hk2 & Hr2).
  rewrite Hd1 in Hd2, Hr2. cbn in Hd2, Hr2.
  assert (fetched s2 = Some src) as Hf2
    by (unfold fetched in *; rewrite Hc2; by apply Hk2).
  destruct (handleSort_spec s2 src _ Hf2 Hr2)
    as (s3 & Hs3 & Hd3 & Hc3 & Hk3 & Hr3).
  rewrite Hd2 in Hd3, Hr3. cbn in Hd3, Hr3.
  assert (fetched s3 = Some src) as Hf3
    by (unfold fetched in *; rewrite Hc3; by apply Hk3).
  exists src, s1, s2, s3. do 2 eexists.
  repeat (split; [first [done | eassumption]|]).
  split; [apply sort_perm|].
  split; [apply (sort_ordered_compare asc)|].
  repeat (split; [first [done | eassumption]|]).
  split; [eapply perm_trans; apply sort_perm|].
  split; [apply (sort_ordered_compare desc)|].
  done.
Qed.

Lemma sort_cycle_witness :
  reachable (mount_with sample_logs) /\
  direction (mount_with sample_logs) = None /\
  exists src s1 s2 s3 r1 r2,
    fetched (mount_with sample_logs) = Some src /\
    rows (mount_with sample_logs) = Some src /\
    handleSort (mount_with sample_logs) = Some s1 /\
    direction s1 = Some asc /\
    rows s1 = Some r1 /\ Permutation src r1 /\
    StronglySorted
      (fun a b => (duration_key a <= duration_key b)%Q) r1 /\
    handleSort s1 = Some s2 /\ direction s2 = Some desc /\
    rows s2 = Some r2 /\ Permutation src r2 /\
    StronglySorted
      (fun a b => (duration_key b <= duration_key a)%Q) r2 /\
    handleSort s2 = Some s3 /\ direction s3 = None /\
    rows s3 = Some src /\ fetched s3 = Some src.
Proof.
  assert (reachable (mount_with sample_logs)) as H by mounted.
  split; [exact H|]. split; [reflexivity|].
  apply (sort_cycle (mount_with sample_logs) H). reflexivity.
Defined.

(** C5. Whichever direction an activation leads to, ascending or
    descending, and whatever was on display before it, the rows it
    leaves on display are the stable sort by duration of the fetched
    array: a rearrangement of it, ordered in that direction, in which
    logs of equal duration stand in their fetch order. *)
Theorem sort_is_stable_sort_of_fetched (st : state) (d : dir) :
  reachable st -> next_direction (direction st) = Some d ->
  exists st' src shown,
    fetched st = Some src /\
    handleSort st = Some st' /\ direction st' = Some d /\
    fetched st' = Some src /\ rows st' = Some shown /\
    stable_sort_of d src shown /\
    shown = sort (compare d) src.
Proof.
  intros Hst Hd.
  destruct (reachable_inv st Hst) as (src & shown & Hf & Hr & HP & HT).
  destruct (handleSort_spec st src shown Hf Hr)
    as (st' & Hs & Hd' & Hc & Hk & Hr').
  rewrite Hd in Hd', Hr'.
  assert (stable_sort_of d src (sort (compare d) shown)) as Hstable
    by by apply sort_stable_sort_of.
  exists st', src, (sort (compare d) shown).
  repeat (split; [first [done | eassumption]|]).
  split; [unfold fetched in *; rewrite Hc; by apply Hk|].
  split; [done|]. split; [done|].
  apply (stable_sort_unique d src); [done|].
  by apply sort_stable_sort_of.
Qed.

Lemma sort_is_stable_sort_of_fetched_witness :
  reachable sample_sorted /\
  next_direction (direction sample_sorted) = Some desc /\
  exists st' src shown,
    fetched sample_sorted = Some src /\
    handleSort sample_sorted = Some st' /\ direction st' = Some desc /\
    fetched st' = Some src /\ rows st' = Some shown /\
    stable_sort_of desc src shown /\
    shown = sort (compare desc) src.
Proof.
  assert (reachable sample_sorted) as H by sorted_once.
  split; [exact H|]. split; [vm_compute; reflexivity|].
  apply (sort_is_stable_sort_of_fetched sample_sorted desc H).
  vm_compute. reflexivity.
Defined.

(** C9. No activation of the sort control touches the fetched array:
    after any number of activations the [callLogs] prop is the same
    reference and the array it refers to has the same elements in the
    same order, as has every array that was in the store before. *)
Theorem sort_never_mutates_source (n : nat) (st : state) :
  reachable st ->
  exists st' src,
    fetched st = Some src /\
    activate n st = Some st' /\
    callLogs st' = callLogs st /\
    fetched st' = Some src /\
    forall l v, store st !! l = Some v -> store st' !! l = Some v.
Proof.
  revert st. induction n as [|n IH]; intros st Hst.
  - destruct (reachable_inv st Hst) as (src & _ & Hf & _).
    exists st, src. by repeat split.
  - destruct (handleSort_reachable st Hst)
      as (s1 & src & Hf & Hs & Hr1 & _ & Hc & Hf1 & Hk).
    destruct (IH s1 Hr1) as (st' & src' & Hf1' & Ha & Hc' & Hf' & Hk').
    assert (src' = src) as -> by congruence.
    exists st', src. cbn [activate]. rewrite Hs.
    repeat split; try done; [congruence | eauto].
Qed.

Lemma sort_never_mutates_source_witness :
  reachable sample_sorted /\
  exists st' src,
    fetched sample_sorted = Some src /\
    activate 5 sample_sorted = Some st' /\
    callLogs st' = callLogs sample_sorted /\
    fetched st' = Some src /\
    forall l v,
      store sample_sorted !! l = Some v -> store st' !! l = Some v.
Proof.
  assert (reachable sample_sorted) as H by sorted_once.
  split; [exact H|].
  apply (sort_never_mutates_source 5 sample_sorted H).
Defined.

(** On display after the three activations of the cycle, for the sample:
    ties (a and d, c and f, b and e) keep their fetch order both ways. *)
Example sample_cycle :
  List.map (fun n => List.map callId
                       (default [] (activate n (mount_with sample_logs)
                                      ≫= rows)))
           [0; 1; 2; 3]%nat
  = [ ["a"; "b"; "c"; "d"; "e"; "f"];
      ["b"; "e"; "c"; "f"; "a"; "d"];
      ["a"; "d"; "c"; "f"; "b"; "e"];
      ["a"; "b"; "c"; "d"; "e"; "f"] ].
Proof. vm_compute. reflexivity. Qed.

(** When the parent passes another array, the rows become that array,
    and the sort direction is the one it was. *)
Lemma receive_logs_spec (logs : list CallLog) (st : state) :
  rows (receive_logs logs st) = Some logs /\
  fetched (receive_logs logs st) = Some logs /\
  direction (receive_logs logs st) = direction st.
Proof.
  unfold rows, fetched, receive_logs, alloc. cbn.
  by rewrite lookup_insert_eq.
Qed.

(** Without a change of the array, a direction that is set tells how the
    rows are ordered. *)
Lemma sorted_as_directed (logs : list CallLog) (n : nat) :
  exists st shown,
    activate n (mount_with logs) = Some st /\
    rows st = Some shown /\
    forall d, direction st = Some d -> StronglySorted (ordered d) shown.
Proof.
  assert (forall st,
    reachable st ->
    (exists shown, rows st = Some shown /\
       forall d, direction st = Some d ->
                 StronglySorted (ordered d) shown) ->
    exists st' shown,
      activate n st = Some st' /\ rows st' = Some shown /\
      forall d, direction st' = Some d ->
                StronglySorted (ordered d) shown) as Hgen.
  { induction n as [|n IH]; intros st Hst (shown & Hr & Hd).
    - by exists st, shown.
    - destruct (reachable_inv st Hst) as (src & shown' & Hf & Hr' & _).
      destruct (handleSort_spec st src shown' Hf Hr')
        as (s1 & Hs & Hd1 & _ & _ & Hr1).
      cbn [activate]. rewrite Hs. apply IH.
      + by apply (reach_sort st).
      + eexists. split; [exact Hr1|]. rewrite Hd1.
        intros d ->. apply sort_ordered_compare. }
  apply Hgen.
  - apply reach_mount. unfold alloc. cbn. rewrite lookup_insert_eq.
    by eexists.
  - exists logs. split.
    + unfold rows, mount_with, alloc. cbn. by rewrite lookup_insert_eq.
    + intros d Hd. discriminate Hd.
Qed.

(** C6. The table is mounted with the sample logs, the sort control is
    activated once (direction [asc]) and the parent then passes another
    array, the sample in reverse.  The rows are reset to the new array,
    but the direction is still [asc]: it is not reset to [null], and the
    rows are not in ascending order. *)
Theorem list_change_keeps_direction :
  handleSort (mount_with sample_logs) = Some sample_sorted /\
  direction sample_sorted = Some asc /\
  rows (receive_logs (rev sample_logs) sample_sorted)
    = Some (rev sample_logs) /\
  fetched (receive_logs (rev sample_logs) sample_sorted)
    = Some (rev sample_logs) /\
  direction (receive_logs (rev sample_logs) sample_sorted) = Some asc /\
  ~ StronglySorted (ordered asc) (rev sample_logs).
Proof.
  split; [vm_compute; reflexivity|].
  split; [vm_compute; reflexivity|].
  destruct (receive_logs_spec (rev sample_logs) sample_sorted)
    as (Hr & Hf & Hd).
  split; [exact Hr|]. split; [exact Hf|].
  split; [rewrite Hd; vm_compute; reflexivity|].
  intros HS. cbn in HS.
  apply StronglySorted_inv in HS as [_ HF].
  apply Forall_inv in HF. vm_compute in HF. by apply HF.
Qed.

(** The claim of C2 fails for a log whose nullable fields are all
    missing: its duration is exported as [undefined]. *)
Lemma missing_as_NA_counterexample :
  ~ missing_as_NA (sample_log "b" None None).
Proof.
  intros (_ & H & _). specialize (H eq_refl). discriminate H.
Qed.

(** C2, amended. In the record exported for a log, a missing
    disconnection reason is written as ["N/A"]; a missing duration gives
    no value ([undefined]); a missing sentiment, start time, summary,
    transcript or recording URL is passed on as it is ([null]). *)
Theorem export_missing_values (log : CallLog) :
  (disconnection_reason log = None ->
   field (exportRecord log) "Disconnection Reason" = Str "N/A") /\
  (call_duration log = None ->
   field (exportRecord log) "Duration (sec)" = Undefined) /\
  (user_sentiment log = None ->
   field (exportRecord log) "Sentiment" = Null) /\
  (start_time log = None ->
   field (exportRecord log) "Start Time" = Null) /\
  (call_summary log = None ->
   field (exportRecord log) "Call Summary" = Null) /\
  (call_transcript log = None ->
   field (exportRecord log) "Call Transcript" = Null) /\
  (call_recording log = None ->
   field (exportRecord log) "Call Recording URL" = Null).
Proof.
  repeat split; intros H; cbn; by rewrite H.
Qed.

End TableFacts.

(** ** Facts about the aggregates *)

Section AggregateFacts.

Lemma is_completed_spec (log : CallLog) :
  is_completed log
  = bool_decide (disconnection_reason log = Some "completed").
Proof.
  unfold is_completed. destruct (disconnection_reason log) as [r|].
  - destruct (String.eqb_spec r "completed") as [->|Hne].
    + by rewrite bool_decide_eq_true_2.
    + rewrite bool_decide_eq_false_2; [done | congruence].
  - by rewrite bool_decide_eq_false_2.
Qed.

(** The comparison is exact: another spelling is not counted. *)
Example completed_is_case_sensitive :
  List.map is_completed sample_logs
  = [true; false; false; false; true; false] /\
  answeredCalls sample_logs = 2 /\ unansweredCalls sample_logs = 4.
Proof. vm_compute. done. Qed.

(** C7. For every list of call logs the answered and the unanswered
    calls add up to the total; the total is the length of the list, the
    answered calls are the logs whose disconnection reason is exactly
    the string ["completed"], and the unanswered calls are the total
    minus the answered ones, which is never negative. *)
Theorem counters_partition (callLogs : list CallLog) :
  answeredCalls callLogs + unansweredCalls callLogs = totalCalls callLogs /\
  totalCalls callLogs = Z.of_nat (List.length callLogs) /\
  answeredCalls callLogs
  = Z.of_nat (List.length
                (List.filter
                   (fun log => bool_decide
                                 (disconnection_reason log
                                  = Some "completed"))
                   callLogs)) /\
  unansweredCalls callLogs = totalCalls callLogs - answeredCalls callLogs /\
  0 <= unansweredCalls callLogs.
Proof.
  unfold unansweredCalls, answeredCalls, totalCalls.
  split; [lia|]. split; [reflexivity|]. split.
  - do 2 f_equal. apply filter_ext. intros log. apply is_completed_spec.
  - split; [reflexivity|].
    pose proof (filter_length_le is_completed callLogs). lia.
Qed.

(** C8. Grouping by disconnection reason a list of two logs, the first
    without a reason and the second with reason ["completed"], gives one
    count under ["Unknown"] and one under ["completed"], in this order,
    in the object, in its entries and in the data of the chart. *)
Theorem groupBy_null_then_completed (a b : CallLog) :
  disconnection_reason a = None ->
  disconnection_reason b = Some "completed" ->
  disconnectionReasonData [a; b] = [("Unknown", 1); ("completed", 1)] /\
  Obj.entries (disconnectionReasonData [a; b])
  = [("Unknown", 1); ("completed", 1)] /\
  disconnectionReasonChartData [a; b]
  = [mkDatum "Unknown" 1; mkDatum "completed" 1].
Proof.
  intros Ha Hb.
  assert (disconnectionReasonData [a; b]
          = [("Unknown", 1); ("completed", 1)]) as E
    by (unfold disconnectionReasonData; cbn; by rewrite Ha, Hb).
  unfold disconnectionReasonChartData. rewrite E.
  split; [reflexivity|]. split; vm_compute; reflexivity.
Qed.

Lemma groupBy_null_then_completed_witness :
  disconnection_reason (sample_log "b" None None) = None /\
  disconnection_reason (sample_log "a" (Some "completed") (Some (3 # 1)))
  = Some "completed" /\
  disconnectionReasonData
    [sample_log "b" None None;
     sample_log "a" (Some "completed") (Some (3 # 1))]
  = [("Unknown", 1); ("completed", 1)] /\
  Obj.entries
    (disconnectionReasonData
       [sample_log "b" None None;
        sample_log "a" (Some "completed") (Some (3 # 1))])
  = [("Unknown", 1); ("completed", 1)] /\
  disconnectionReasonChartData
    [sample_log "b" None None;
     sample_log "a" (Some "completed") (Some (3 # 1))]
  = [mkDatum "Unknown" 1; mkDatum "completed" 1].
Proof.
  split; [reflexivity|]. split; [reflexivity|].
  apply (groupBy_null_then_completed
           (sample_log "b" None None)
           (sample_log "a" (Some "completed") (Some (3 # 1))));
    reflexivity.
Defined.

(** The worked example of the specification: durations 10 and null. *)
Example average_of_two :
  averageLabel [sample_log "x" (Some "completed") (Some (10 # 1));
                sample_log "y" (Some "no-answer") None]
  = "5.00 sec".
Proof. vm_compute. reflexivity. Qed.

End AggregateFacts.

(** ** Facts about the loader and the page *)

Section LoaderFacts.

Import UseCampaignData.

Lemma run_idle (w w' : world) (es : list event) :
  inflight w = [] -> Forall undefined_id es ->
  run w es = Some w' -> w' = w.
Proof.
  intros Hw Hes. revert w'.
  induction Hes as [|e es He _ IH]; intros w' Hrun; cbn in Hrun.
  - congruence.
  - destruct e as [[s|]|i o]; cbn in *.
    + destruct He.
    + by apply IH.
    + rewrite Hw in Hrun. discriminate.
Qed.

Lemma run_effects_undefined (w : world) (n : nat) :
  run w (replicate n (Effect None)) = Some w.
Proof. induction n as [|n IH]; [reflexivity | exact IH]. Qed.

(** C1. For an empty list of call logs the average is the not-a-number
    result of 0 / 0 and the stat card is given the text ["NaN sec"]:
    once the loader has delivered an empty list, the page that is
    rendered carries this text. *)
Theorem empty_list_average_renders_NaN :
  averageCallDuration [] = JS.NaN /\
  averageLabel [] = "NaN sec" /\
  exists w d,
    run init [Effect (Some "7");
              Settled 0 (Fulfilled [] (Some (mkCampaign 7 "Spring")))]
    = Some w /\
    CampaignAnalytics (state w) = Page d /\
    heading d = "Spring Analytics" /\
    statTotal d = 0 /\
    statAverage d = "NaN sec".
Proof.
  split; [reflexivity|]. split; [reflexivity|].
  do 2 eexists. split; [reflexivity|].
  split; [reflexivity|]. by vm_compute.
Qed.

(** C10. While the campaign identifier is undefined, whatever happens,
    no request is issued and the loader stays as it was created, with
    [loading] true, so that the page is the loading indicator; and the
    effect may run again any number of times without changing this. *)
Theorem undefined_id_stays_loading (es : list event) (w : world) :
  Forall undefined_id es -> run init es = Some w ->
  loading (state w) = true /\
  issued w = 0%nat /\ inflight w = [] /\
  callLogs (state w) = [] /\ error (state w) = None /\
  CampaignAnalytics (state w) = LoadingIndicator /\
  forall n, run w (replicate n (Effect None)) = Some w.
Proof.
  intros Hes Hrun.
  rewrite (run_idle init w es eq_refl Hes Hrun).
  repeat split. apply run_effects_undefined.
Qed.

Lemma undefined_id_stays_loading_witness :
  Forall undefined_id [Effect None; Effect None] /\
  run init [Effect None; Effect None] = Some init /\
  loading (state init) = true /\
  issued init = 0%nat /\ inflight init = [] /\
  callLogs (state init) = [] /\ error (state init) = None /\
  CampaignAnalytics (state init) = LoadingIndicator /\
  forall n, run init (replicate n (Effect None)) = Some init.
Proof.
  assert (Forall undefined_id [Effect None; Effect None]) as H
    by (repeat constructor).
  split; [exact H|]. split; [reflexivity|].
  apply (undefined_id_stays_loading [Effect None; Effect None] init H).
  reflexivity.
Defined.

End LoaderFacts.

(** ** Further facts about the grouped counts *)

Section GroupFacts.

Lemma get_set_eq (o : Obj.t) (k : string) (v : Z) :
  Obj.get (Obj.set o k v) k = Some v.
Proof.
  induction o as [|[k' v'] o IH]; cbn.
  - by rewrite String.eqb_refl.
  - destruct (String.eqb_spec k' k) as [->|Hne]; cbn.
    + by rewrite String.eqb_refl.
    + destruct (String.eqb_spec k' k); [done | exact IH].
Qed.

Lemma get_set_ne (o : Obj.t) (k k' : string) (v : Z) :
  k <> k' -> Obj.get (Obj.set o k v) k' = Obj.get o k'.
Proof.
  intros Hne. induction o as [|[k0 v0] o IH]; cbn.
  - destruct (String.eqb_spec k k'); [done | reflexivity].
  - destruct (String.eqb_spec k0 k) as [->|Hk]; cbn.
    + destruct (String.eqb_spec k k'); [done | reflexivity].
    + by rewrite IH.
Qed.

Lemma get_None (o : Obj.t) (k : string) :
  Obj.get o k = None <-> ~ In k (List.map fst o).
Proof.
  induction o as [|[k' v'] o IH]; cbn; [tauto|].
  destruct (String.eqb_spec k' k) as [->|Hne].
  - split; [discriminate | intros H; destruct H; by left].
  - rewrite IH. tauto.
Qed.

Lemma keys_set (o : Obj.t) (k : string) (v : Z) :
  List.map fst (Obj.set o k v)
  = match Obj.get o k with
    | Some _ => List.map fst o
    | None => List.map fst o ++ [k]
    end.
Proof.
  induction o as [|[k' v'] o IH]; cbn; [reflexivity|].
  destruct (String.eqb_spec k' k) as [->|Hne]; cbn; [reflexivity|].
  rewrite IH. by destruct (Obj.get o k).
Qed.


Lemma get_In (o : Obj.t) (k : string) (v : Z) :
  NoDup (List.map fst o) -> In (k, v) o <-> Obj.get o k = Some v.
Proof.
  induction o as [|[k' v'] o IH]; cbn; intros Hnd.
  - split; [tauto | discriminate].
  - apply NoDup_cons in Hnd as [Hk' Hnd].
    destruct (String.eqb_spec k' k) as [->|Hne].
    + split.
      * intros [E|Hin]; [congruence|].
        destruct Hk'. apply list_elem_of_In.
        change k with (fst (k, v)). by apply in_map.
      * intros E. left. congruence.
    + rewrite <- (IH Hnd). split; [|tauto].
      intros [E|Hin]; [congruence | done].
Qed.

(** The value read back by [count_label] is the stored one. *)
Lemma count_label_get (acc : Obj.t) (x k : string) :
  Obj.get (count_label acc x) k
  = if String.eqb x k then Some (default 0 (Obj.get acc x) + 1)
    else Obj.get acc k.
Proof.
  unfold count_label. destruct (String.eqb_spec x k) as [->|Hne].
  - rewrite get_set_eq. f_equal. destruct (Obj.get acc k) as [v|]; cbn;
      [|reflexivity].
    destruct (Z.eqb_spec v 0); lia.
  - by apply get_set_ne.
Qed.

Lemma count_label_keys (acc : Obj.t) (x : string) :
  List.map fst (count_label acc x)
  = match Obj.get acc x with
    | Some _ => List.map fst acc
    | None => List.map fst acc ++ [x]
    end.
Proof. unfold count_label. apply keys_set. Qed.


Section Grouping.

Variable label : CallLog -> string.

Local Abbreviation group logs :=
  (fold_left (fun acc log => count_label acc (label log)) logs []).

Lemma labelled_snoc (k : string) (logs : list CallLog) (x : CallLog) :
  labelled label k (logs ++ [x])
  = labelled label k logs + (if String.eqb (label x) k then 1 else 0).
Proof.
  unfold labelled. rewrite List.filter_app, length_app. cbn.
  destruct (String.eqb (label x) k); cbn; lia.
Qed.

Lemma labelled_nonneg (k : string) (logs : list CallLog) :
  0 <= labelled label k logs.
Proof. unfold labelled. lia. Qed.

(** Under each label the object holds the number of logs that carry it,
    and nothing under a label that no log carries. *)
Lemma group_get (logs : list CallLog) (k : string) :
  Obj.get (group logs) k
  = if labelled label k logs =? 0 then None
    else Some (labelled label k logs).
Proof.
  induction logs as [|x logs IH] using rev_ind; [reflexivity|].
  rewrite fold_left_app. cbn [fold_left].
  rewrite count_label_get, labelled_snoc.
  pose proof (labelled_nonneg k logs) as Hk.
  destruct (String.eqb_spec (label x) k) as [->|Hne].
  - rewrite IH. destruct (Z.eqb_spec (labelled label k logs) 0) as [E|E].
    + rewrite E. reflexivity.
    + destruct (Z.eqb_spec (labelled label k logs + 1) 0); [lia|].
      reflexivity.
  - rewrite IH. by rewrite Z.add_0_r.
Qed.

Lemma group_keys_snoc (logs : list CallLog) (x : CallLog) :
  List.map fst (group (logs ++ [x]))
  = if decide (label x ∈ List.map fst (group logs))
    then List.map fst (group logs)
    else List.map fst (group logs) ++ [label x].
Proof.
  rewrite fold_left_app. cbn [fold_left]. rewrite count_label_keys.
  destruct (Obj.get (group logs) (label x)) as [v|] eqn:E.
  - rewrite decide_True; [done|]. apply list_elem_of_In.
    destruct (in_dec String.string_dec (label x)
                (List.map fst (group logs))) as [Hin|Hin]; [done|].
    apply get_None in Hin. congruence.
  - rewrite decide_False; [done|]. rewrite list_elem_of_In.
    by apply get_None.
Qed.


Lemma group_keys_NoDup (logs : list CallLog) :
  NoDup (List.map fst (group logs)).
Proof.
  induction logs as [|x logs IH] using rev_ind; [constructor|].
  rewrite group_keys_snoc. case_decide as Hd; [done|].
  apply NoDup_app. split; [done|]. split.
  - intros y Hy Hx. apply list_elem_of_singleton in Hx as ->. done.
  - apply NoDup_singleton.
Qed.



End Grouping.

(** *** [Object.entries] *)

Lemma insert_index_perm (e : N * (string * Z))
  (l : list (N * (string * Z))) :
  Permutation (Obj.insert_index e l) (e :: l).
Proof.
  induction l as [|e' l IH]; cbn; [done|].
  destruct (fst e <=? fst e')%N; [done|].
  rewrite IH. apply perm_swap.
Qed.

Lemma sort_index_perm (l : list (N * (string * Z))) :
  Permutation (fold_right Obj.insert_index [] l) l.
Proof.
  induction l as [|e l IH]; cbn; [done|].
  rewrite insert_index_perm. by apply perm_skip.
Qed.

Lemma indexed_named_perm (o : Obj.t) :
  Permutation (List.map snd (Obj.indexed o) ++ Obj.named o) o.
Proof.
  unfold Obj.indexed, Obj.named.
  induction o as [|kv o IH]; cbn; [done|].
  destruct (Obj.array_index (fst kv)); cbn.
  - by apply perm_skip.
  - rewrite <- Permutation_middle. by apply perm_skip.
Qed.

(** [Object.entries] lists every property once. *)
Lemma entries_perm (o : Obj.t) : Permutation (Obj.entries o) o.
Proof.
  unfold Obj.entries.
  eapply perm_trans; [|apply indexed_named_perm].
  apply Permutation_app_tail, Permutation_map, sort_index_perm.
Qed.


Lemma chartData_In (o : Obj.t) (k : string) (n : Z) :
  In (mkDatum k n) (chartData o) <-> In (k, n) o.
Proof.
  unfold chartData. rewrite in_map_iff. split.
  - intros ([k' n'] & [= -> ->] & Hin).
    by apply (Permutation_in _ (entries_perm o)).
  - intros Hin. exists (k, n). split; [reflexivity|].
    by apply (Permutation_in _ (Permutation_sym (entries_perm o))).
Qed.

Lemma chartData_names (o : Obj.t) :
  List.map name (chartData o) = List.map fst (Obj.entries o).
Proof.
  unfold chartData. rewrite List.map_map. apply map_ext. by intros [k n].
Qed.


Lemma group_chart_In (label : CallLog -> string) (logs : list CallLog)
  (k : string) (n : Z) :
  In (mkDatum k n)
     (chartData (fold_left (fun acc log => count_label acc (label log))
                           logs []))
  <-> 0 < n /\ n = labelled label k logs.
Proof.
  rewrite chartData_In, get_In by apply group_keys_NoDup.
  rewrite group_get. pose proof (labelled_nonneg label k logs).
  destruct (Z.eqb_spec (labelled label k logs) 0) as [E|E].
  - split; [discriminate | lia].
  - split; [intros [= <-]; lia | intros [_ ->]; reflexivity].
Qed.


(** X2. No label appears twice in a chart: the names of the data of each
    chart are pairwise distinct. *)
Theorem chart_names_distinct (callLogs : list CallLog) :
  NoDup (List.map name (disconnectionReasonChartData callLogs)) /\
  NoDup (List.map name (sentimentChartData callLogs)).
Proof.
  assert (forall label,
    NoDup (List.map name
             (chartData (fold_left
                           (fun acc log => count_label acc (label log))
                           callLogs [])))) as H.
  { intros label. rewrite chartData_names.
    pose proof (Permutation_map fst (entries_perm
      (fold_left (fun acc log => count_label acc (label log))
                 callLogs []))) as HP.
    rewrite HP. apply group_keys_NoDup. }
  split; [apply (H reason_label) | apply (H sentiment_label)].
Qed.


End GroupFacts.

(** ** Order of the wedges, and the counters against the charts *)

Section ChartOrderFacts.



(** A label is an array index exactly when it is the decimal form,
    without sign or leading zeros, of an integer from 0 to 2^32 - 2. *)
Lemma array_index_spec (k : string) (n : N) :
  Obj.array_index k = Some n <-> k = JS.digits n /\ (n < 2 ^ 32 - 1)%N.
Proof.
  unfold Obj.array_index. split.
  - destruct (NilZero.uint_of_string k) as [u|]; [|discriminate].
    destruct (String.eqb_spec (JS.digits (N.of_uint u)) k) as [E|E];
      [|discriminate].
    destruct (N.ltb_spec (N.of_uint u) (2 ^ 32 - 1)) as [L|L];
      [|discriminate].
    cbn. intros [= <-]. done.
  - intros [-> L]. unfold JS.digits.
    rewrite NilZero.usu.
    + rewrite DecimalN.Unsigned.of_to, String.eqb_refl.
      apply N.ltb_lt in L. by rewrite L.
    + destruct n; [discriminate | apply DecimalPos.Unsigned.to_uint_nonnil].
Qed.



Lemma labelled_completed (callLogs : list CallLog) :
  labelled reason_label "completed" callLogs = answeredCalls callLogs.
Proof.
  unfold labelled, answeredCalls. do 2 f_equal. apply filter_ext.
  intros log. unfold reason_label, is_completed, JS.str_or.
  destruct (disconnection_reason log) as [r|]; [|reflexivity].
  destruct (String.eqb_spec r "") as [->|]; reflexivity.
Qed.

(** X6. The "Answered Calls" card and the chart of disconnection reasons
    agree: the chart has a wedge named ["completed"] exactly when some
    call was answered, and the value of this wedge is the number of
    answered calls. *)
Theorem completed_wedge_is_answered (callLogs : list CallLog) (n : Z) :
  In (mkDatum "completed" n) (disconnectionReasonChartData callLogs)
  <-> 0 < n /\ n = answeredCalls callLogs.
Proof.
  rewrite <- labelled_completed.
  apply (group_chart_In reason_label).
Qed.

End ChartOrderFacts.

(** ** The average of a list that is not empty *)

Section AverageFacts.





End AverageFacts.

(** ** Further facts about the loader *)

Section LoaderHistoryFacts.

Import UseCampaignData.

Lemma run_history (es : list event) (w0 w : world) :
  run w0 es = Some w ->
  loading (state w)
  = loading (state w0) && negb (existsb is_settled es) /\
  error (state w)
  = (if existsb is_rejected es
     then Some "Failed to load campaign data. Please try again."
     else error (state w0)) /\
  issued w
  = (issued w0 + List.length (List.filter issues_request es))%nat /\
  (List.length (inflight w) + List.length (List.filter is_settled es)
   = List.length (inflight w0)
     + List.length (List.filter issues_request es))%nat.
Proof.
  revert w0. induction es as [|e es IH]; intros w0 Hrun; cbn in Hrun.
  - injection Hrun as <-. cbn. rewrite andb_true_r. repeat split; lia.
  - destruct (step w0 e) as [w1|] eqn:Hstep; [|discriminate].
    destruct (IH w1 Hrun) as (Hl & He & Hi & Hf). clear IH Hrun.
    rewrite Hl, He, Hi. clear Hl He Hi.
    destruct e as [id|i o]; cbn in Hstep.
    + cbn [existsb is_settled is_rejected issues_request List.filter orb].
      destruct (truthy id) as [s|]; injection Hstep as <-; cbn in *.
      * rewrite length_app in Hf. cbn in Hf. repeat split; lia.
      * repeat split; lia.
    + destruct (inflight w0 !! i) as [r|] eqn:Hr; [|discriminate].
      injection Hstep as <-.
      assert (i < List.length (inflight w0))%nat as Hlt
        by (apply lookup_lt_is_Some; by eexists).
      cbn [inflight] in Hf. rewrite length_delete in Hf by by eexists.
      cbn [existsb is_settled issues_request List.filter orb negb
           state issued List.length].
      rewrite andb_false_r.
      destruct o as [logs c|]; cbn [settle is_rejected loading error orb];
        (split; [reflexivity|]); (split; [|lia]).
      * reflexivity.
      * by destruct (existsb is_rejected es).
Qed.

(** X9. What the page shows is fixed by what has happened to the requests:
    the loading indicator as long as none has settled; from then on the
    error panel, with the one fixed message, if any request has ever been
    rejected (a later success does not clear the error); and the
    dashboard otherwise. *)
Theorem page_by_history (es : list event) (w : world) :
  run init es = Some w ->
  CampaignAnalytics (state w)
  = if negb (existsb is_settled es) then LoadingIndicator
    else if existsb is_rejected es
         then ErrorPanel "Failed to load campaign data. Please try again."
         else Page (dashboard (campaignTitle (state w))
                              (callLogs (state w))).
Proof.
  intros Hrun. destruct (run_history es init w Hrun) as (Hl & He & _).
  unfold CampaignAnalytics. rewrite Hl, He. cbn [init state loading error].
  destruct (existsb is_settled es); cbn; [|reflexivity].
  by destruct (existsb is_rejected es).
Qed.

Lemma page_by_history_witness :
  let es := [Effect (Some "7"); Effect (Some "8");
             Settled 0 Rejected;
             Settled 0 (Fulfilled sample_logs None)] in
  exists w,
    run init es = Some w /\
    CampaignAnalytics (state w)
    = if negb (existsb is_settled es) then LoadingIndicator
      else if existsb is_rejected es
           then ErrorPanel "Failed to load campaign data. Please try again."
           else Page (dashboard (campaignTitle (state w))
                                (callLogs (state w))).
Proof.
  intros es. eexists. split; [reflexivity|].
  apply (page_by_history es). reflexivity.
Defined.

(** X10. Every run of the effect with a non-empty identifier issues
    exactly one joint request, no other event issues one, and a request
    settles at most once: the requests issued are those still in flight
    plus those that have settled. *)
Theorem requests_accounted (es : list event) (w : world) :
  run init es = Some w ->
  issued w = List.length (List.filter issues_request es) /\
  (List.length (inflight w) + List.length (List.filter is_settled es))%nat
  = issued w.
Proof.
  intros Hrun. destruct (run_history es init w Hrun) as (_ & _ & Hi & Hf).
  cbn in Hi, Hf. lia.
Qed.

Lemma requests_accounted_witness :
  let es := [Effect (Some "7"); Effect None; Effect (Some "8");
             Settled 1 Rejected] in
  exists w,
    run init es = Some w /\
    issued w = List.length (List.filter issues_request es) /\
    (List.length (inflight w) + List.length (List.filter is_settled es))%nat
    = issued w.
Proof.
  intros es. eexists. split; [reflexivity|].
  apply (requests_accounted es). reflexivity.
Defined.

(** X11. The response that arrives last wins, whichever request it
    answers: when the effect has run for one identifier and then for
    another, and the second request is fulfilled before the first, the
    hook ends with the logs and the title of the first, older request. *)
Theorem stale_response_wins (w : world) (id1 id2 : string)
  (logs1 logs2 : list CallLog) (c1 c2 : option Campaign) :
  id1 <> "" -> id2 <> "" ->
  exists w',
    run w [Effect (Some id1); Effect (Some id2);
           Settled (S (List.length (inflight w))) (Fulfilled logs2 c2);
           Settled (List.length (inflight w)) (Fulfilled logs1 c1)]
    = Some w' /\
    callLogs (state w') = logs1 /\
    campaignTitle (state w') = JS.str_or (title <$> c1) "Campaign" /\
    loading (state w') = false /\
    inflight w' = inflight w.
Proof.
  intros H1 H2.
  assert (forall s, s <> "" -> truthy (Some s) = Some s) as Ht.
  { intros s Hs. cbn. by destruct (String.eqb_spec s ""). }
  cbn [run step]. rewrite (Ht id1 H1). cbn [inflight state issued].
  rewrite (Ht id2 H2). cbn [inflight state issued].
  set (l := inflight w).
  assert (((l ++ [parseInt10 id1]) ++ [parseInt10 id2])
            !! S (List.length l) = Some (parseInt10 id2)) as E2.
  { rewrite <- app_assoc. rewrite lookup_app_r by lia.
    by replace (S (List.length l) - List.length l)%nat with 1%nat by lia. }
  rewrite E2. cbn [inflight state].
  assert (delete (S (List.length l))
            ((l ++ [parseInt10 id1]) ++ [parseInt10 id2])
          = l ++ [parseInt10 id1]) as D2.
  { replace (S (List.length l))
      with (List.length (l ++ [parseInt10 id1]))
      by (rewrite length_app; cbn; lia).
    by rewrite delete_middle, app_nil_r. }
  rewrite D2.
  assert ((l ++ [parseInt10 id1]) !! List.length l
          = Some (parseInt10 id1)) as E1.
  { rewrite lookup_app_r by lia. by rewrite Nat.sub_diag. }
  rewrite E1. eexists. split; [reflexivity|]. cbn.
  repeat split. by rewrite delete_middle, app_nil_r.
Qed.

Lemma stale_response_wins_witness :
  "7" <> "" /\ "8" <> "" /\
  exists w',
    run init [Effect (Some "7"); Effect (Some "8");
              Settled (S (List.length (inflight init)))
                      (Fulfilled [] None);
              Settled (List.length (inflight init))
                      (Fulfilled sample_logs None)]
    = Some w' /\
    callLogs (state w') = sample_logs /\
    campaignTitle (state w') = JS.str_or (title <$> None) "Campaign" /\
    loading (state w') = false /\
    inflight w' = inflight init.
Proof.
  assert ("7" <> "") as H1 by discriminate.
  assert ("8" <> "") as H2 by discriminate.
  split; [exact H1|]. split; [exact H2|].
  apply (stale_response_wins init "7" "8" sample_logs [] None None H1 H2).
Defined.

End LoaderHistoryFacts.

(** ** The argument of the requests *)

Section ParseIntFacts.

Import UseCampaignData.





End ParseIntFacts.

(** ** Further facts about the table *)

Section TableCycleFacts.

Import CallLogTable.

(** The rows an activation leaves on display, from the fetched array and
    the direction it leads to. *)
Lemma handleSort_rows (st : state) :
  reachable st ->
  exists st' src,
    fetched st = Some src /\ handleSort st = Some st' /\
    reachable st' /\ fetched st' = Some src /\
    direction st' = next_direction (direction st) /\
    rows st' = Some match direction st' with
                    | Some d => sort (compare d) src
                    | None => src
                    end.
Proof.
  intros Hst.
  destruct (reachable_inv st Hst) as (src & shown & Hf & Hr & HP & HT).
  destruct (handleSort_spec st src shown Hf Hr)
    as (st' & Hs & Hd & Hc & Hk & Hr').
  exists st', src. split; [done|]. split; [done|].
  split; [by apply (reach_sort st)|].
  split; [unfold fetched in *; rewrite Hc; by apply Hk|].
  split; [done|]. rewrite Hr', Hd. f_equal.
  destruct (next_direction (direction st)) as [d|]; [|reflexivity].
  apply (stable_sort_unique d src).
  - by apply sort_stable_sort_of.
  - by apply sort_stable_sort_of.
Qed.

Lemma activate_rows (n : nat) (st : state) :
  reachable st ->
  exists st' src,
    fetched st = Some src /\ activate (S n) st = Some st' /\
    fetched st' = Some src /\
    direction st' = Nat.iter (S n) next_direction (direction st) /\
    rows st' = Some match direction st' with
                    | Some d => sort (compare d) src
                    | None => src
                    end.
Proof.
  revert st. induction n as [|n IH]; intros st Hst;
    destruct (handleSort_rows st Hst)
      as (s1 & src & Hf & Hs & Hr1 & Hf1 & Hd1 & Hrows1).
  - exists s1, src. cbn [activate]. rewrite Hs. by repeat split.
  - destruct (IH s1 Hr1) as (st' & src' & Hf1' & Ha & Hf' & Hd' & Hrows').
    assert (src' = src) as -> by congruence.
    exists st', src. split; [done|]. split.
    + change (activate (S (S n)) st)
        with (match handleSort st with
              | Some s => activate (S n) s
              | None => None
              end).
      by rewrite Hs.
    + split; [done|]. split; [|done].
      rewrite Hd', Hd1. by rewrite <- Nat.iter_succ_r.
Qed.

(** X13. The sort control has period three: after at least one
    activation, three more activations lead to the same direction and the
    same rows on display, over the same fetched array. *)
Theorem sort_period_three (n : nat) (st : state) :
  reachable st ->
  exists s1 s2,
    activate (S n) st = Some s1 /\
    activate (S n + 3) st = Some s2 /\
    direction s2 = direction s1 /\
    rows s2 = rows s1 /\
    fetched s2 = fetched s1.
Proof.
  intros Hst.
  destruct (activate_rows n st Hst) as (s1 & src & Hf & Ha1 & Hf1 & Hd1 & Hr1).
  destruct (activate_rows (n + 3) st Hst)
    as (s2 & src' & Hf' & Ha2 & Hf2 & Hd2 & Hr2).
  assert (src' = src) as -> by congruence.
  exists s1, s2. split; [done|]. split; [exact Ha2|].
  assert (direction s2 = direction s1) as Hd.
  { rewrite Hd1, Hd2.
    replace (S (n + 3)) with (S n + 3)%nat by lia.
    rewrite Nat.iter_add. f_equal.
    by destruct (direction st) as [[]|]. }
  split; [done|]. split; [|congruence].
  by rewrite Hr1, Hr2, Hd.
Qed.

Lemma sort_period_three_witness :
  reachable sample_sorted /\
  exists s1 s2,
    activate 2 sample_sorted = Some s1 /\
    activate (2 + 3) sample_sorted = Some s2 /\
    direction s2 = direction s1 /\
    rows s2 = rows s1 /\
    fetched s2 = fetched s1.
Proof.
  assert (reachable sample_sorted) as H.
  { apply (reach_sort (mount_with sample_logs)).
    - apply reach_mount. vm_compute. eexists. reflexivity.
    - vm_compute. reflexivity. }
  split; [exact H|].
  apply (sort_period_three 1 sample_sorted H).
Defined.

(** X14. The export and the table body show the same logs in the same
    order: there are as many rows as records, the record at a position is
    built from the log that a click on the row at this position selects,
    and the six cells of the row are the texts of the first six columns
    of the record, with [" sec"] after the duration. *)
Theorem table_matches_export (st : state) (now : string) :
  reachable st ->
  exists shown wb,
    rows st = Some shown /\ handleExport now st = Some wb /\
    List.length (TableBody.tbody shown) = List.length (records wb) /\
    forall (i : nat) r,
      TableBody.tbody shown !! i = Some r ->
      shown !! i = Some (TableBody.target r) /\
      records wb !! i = Some (exportRecord (TableBody.target r)) /\
      TableBody.cells r
      = let record := exportRecord (TableBody.target r) in
        [ TableBody.text (field record "Phone Number");
          TableBody.text (field record "First Name");
          TableBody.text (field record "Call ID");
          TableBody.text (field record "Disconnection Reason");
          TableBody.text (field record "Duration (sec)") +:+ " sec";
          TableBody.text (field record "Sentiment") ].
Proof.
  intros Hst.
  destruct (reachable_inv st Hst) as (src & shown & _ & Hr & _).
  exists shown. eexists. split; [exact Hr|].
  unfold handleExport. unfold rows in Hr. rewrite Hr.
  split; [reflexivity|]. cbn [records].
  unfold TableBody.tbody. split; [by rewrite length_imap, length_map|].
  intros i r Hi. rewrite list_lookup_imap in Hi.
  destruct (shown !! i) as [log|] eqn:E; [|discriminate].
  injection Hi as <-. cbn [TableBody.target TableBody.renderRow].
  split; [done|]. split; [|reflexivity].
  change (List.map exportRecord shown) with (exportRecord <$> shown).
  by rewrite list_lookup_fmap, E.
Qed.

Lemma table_matches_export_witness :
  reachable sample_sorted /\
  exists shown wb,
    rows sample_sorted = Some shown /\
    handleExport "2024-05-06T07:08:09.000Z" sample_sorted = Some wb /\
    List.length (TableBody.tbody shown) = List.length (records wb) /\
    forall (i : nat) r,
      TableBody.tbody shown !! i = Some r ->
      shown !! i = Some (TableBody.target r) /\
      records wb !! i = Some (exportRecord (TableBody.target r)) /\
      TableBody.cells r
      = let record := exportRecord (TableBody.target r) in
        [ TableBody.text (field record "Phone Number");
          TableBody.text (field record "First Name");
          TableBody.text (field record "Call ID");
          TableBody.text (field record "Disconnection Reason");
          TableBody.text (field record "Duration (sec)") +:+ " sec";
          TableBody.text (field record "Sentiment") ].
Proof.
  assert (reachable sample_sorted) as H.
  { apply (reach_sort (mount_with sample_logs)).
    - apply reach_mount. vm_compute. eexists. reflexivity.
    - vm_compute. reflexivity. }
  split; [exact H|].
  apply (table_matches_export sample_sorted _ H).
Defined.

Lemma before_T_app (d r : string) :
  Forall (fun c => c <> "T"%char) (String.list_ascii_of_string d) ->
  before_T (d +:+ String "T" r) = d.
Proof.
  induction d as [|c d IH]; intros HF.
  - reflexivity.
  - cbn [String.list_ascii_of_string] in HF.
    apply Forall_cons in HF as [Hc HF].
    change (before_T (String c (d +:+ String "T" r)) = String c d).
    cbn [before_T].
    destruct (Ascii.eqb_spec c "T"); [done|]. by rewrite IH.
Qed.

(** X15. When the current time in ISO form is a date without the letter
    T, followed by T and the time of day, the workbook is written to
    [call_logs_<date>.xlsx] and has the one sheet ["Call Logs"]. *)
Theorem export_file_name (st : state) (date time : string) :
  reachable st ->
  Forall (fun c => c <> "T"%char) (String.list_ascii_of_string date) ->
  exists wb,
    handleExport (date +:+ String "T" time) st = Some wb /\
    fileName wb = "call_logs_" +:+ date +:+ ".xlsx" /\
    sheetName wb = "Call Logs".
Proof.
  intros Hst Hd.
  destruct (reachable_inv st Hst) as (src & shown & _ & Hr & _).
  unfold handleExport. unfold rows in Hr. rewrite Hr.
  eexists. split; [reflexivity|]. cbn [fileName sheetName].
  by rewrite before_T_app.
Qed.

Lemma export_file_name_witness :
  reachable sample_sorted /\
  Forall (fun c => c <> "T"%char) (String.list_ascii_of_string "2024-05-06") /\
  exists wb,
    handleExport ("2024-05-06" +:+ String "T" "07:08:09.000Z")
                 sample_sorted = Some wb /\
    fileName wb = "call_logs_" +:+ "2024-05-06" +:+ ".xlsx" /\
    sheetName wb = "Call Logs".
Proof.
  assert (reachable sample_sorted) as H.
  { apply (reach_sort (mount_with sample_logs)).
    - apply reach_mount. vm_compute. eexists. reflexivity.
    - vm_compute. reflexivity. }
  assert (Forall (fun c => c <> "T"%char)
                 (String.list_ascii_of_string "2024-05-06")) as HF
    by (repeat constructor; discriminate).
  split; [exact H|]. split; [exact HF|].
  apply (export_file_name sample_sorted "2024-05-06" "07:08:09.000Z" H HF).
Defined.

End TableCycleFacts.

(** ** Durations with two decimals *)

Section ToFixedFacts.








End ToFixedFacts.

(** ** The colours of the wedges *)

Section PieChartFacts.

Lemma fill_cases (i : nat) :
  exists c, PieChart.fill i = Some c /\
            PieChart.COLORS !! (i mod 6)%nat = Some c.
Proof.
  unfold PieChart.fill.
  change (List.length PieChart.COLORS) with 6%nat.
  pose proof (Nat.mod_upper_bound i 6) as Hlt.
  destruct (i mod 6)%nat as [|[|[|[|[|[|k]]]]]]; try (by eexists); lia.
Qed.

(** X17. Every wedge of a chart gets one of the six colours, and two
    wedges get the same colour exactly when their positions differ by a
    multiple of six: the colours of a chart with at most six labels are
    all different, those of a longer chart repeat. *)
Theorem wedge_colours (data : list ChartDatum) (i j : nat) :
  (i < List.length data)%nat -> (j < List.length data)%nat ->
  exists ci cj,
    PieChart.cells data !! i = Some (Some ci) /\
    PieChart.cells data !! j = Some (Some cj) /\
    In ci PieChart.COLORS /\
    (ci = cj <-> (i mod 6 = j mod 6)%nat).
Proof.
  intros Hi Hj.
  apply lookup_lt_is_Some in Hi as [di Hdi].
  apply lookup_lt_is_Some in Hj as [dj Hdj].
  unfold PieChart.cells. rewrite !list_lookup_imap, Hdi, Hdj.
  cbn [fmap option_fmap option_map].
  unfold PieChart.fill. change (List.length PieChart.COLORS) with 6%nat.
  pose proof (Nat.mod_upper_bound i 6) as Hlti.
  pose proof (Nat.mod_upper_bound j 6) as Hltj.
  destruct (i mod 6)%nat as [|[|[|[|[|[|k]]]]]]; try lia;
    destruct (j mod 6)%nat as [|[|[|[|[|[|k']]]]]]; try lia;
    do 2 eexists; (split; [reflexivity|]); (split; [reflexivity|]);
    (split; [cbn; tauto|]); split; intros E;
    first [reflexivity | discriminate E].
Qed.

Lemma wedge_colours_witness :
  (1 < List.length (disconnectionReasonChartData
                      (sample_logs ++ sample_logs)))%nat /\
  (3 < List.length (disconnectionReasonChartData
                      (sample_logs ++ sample_logs)))%nat /\
  exists ci cj,
    PieChart.cells (disconnectionReasonChartData
                      (sample_logs ++ sample_logs)) !! 1%nat
    = Some (Some ci) /\
    PieChart.cells (disconnectionReasonChartData
                      (sample_logs ++ sample_logs)) !! 3%nat
    = Some (Some cj) /\
    In ci PieChart.COLORS /\
    (ci = cj <-> (1 mod 6 = 3 mod 6)%nat).
Proof.
  assert (1 < List.length (disconnectionReasonChartData
                             (sample_logs ++ sample_logs)))%nat as H1
    by (vm_compute; lia).
  assert (3 < List.length (disconnectionReasonChartData
                             (sample_logs ++ sample_logs)))%nat as H3
    by (vm_compute; lia).
  split; [exact H1|]. split; [exact H3|].
  apply (wedge_colours _ 1 3 H1 H3).
Defined.

End PieChartFacts.

(** ** The details modal and the selection *)

Section ModalFacts.

Lemma str_or_nonempty (v : option string) (d : string) :
  d <> "" -> JS.str_or v d <> "".
Proof.
  intros Hd. unfold JS.str_or. destruct v as [s|]; [|done].
  by destruct (String.eqb_spec s "").
Qed.

(** X18. The modal of a selected log never shows an empty disconnection
    reason, start time, summary or transcript (a missing or empty one is
    replaced by its fallback text), and it has an audio player exactly
    when the log has a recording URL that is not empty, with this URL as
    source. *)
Theorem modal_texts (log : CallLog) :
  exists m,
    Modal.CallDetailsModal (Some log) = Some m /\
    Modal.reason m <> "" /\ Modal.start m <> "" /\
    Modal.summary m <> "" /\ Modal.transcript m <> "" /\
    (forall url, Modal.audio m = Some url
                 <-> call_recording log = Some url /\ url <> "").
Proof.
  eexists. split; [reflexivity|]. cbn.
  repeat (split; [by apply str_or_nonempty|]).
  intros url. destruct (call_recording log) as [u|].
  - destruct (String.eqb_spec u "") as [->|Hne].
    + split; [discriminate | intros [[= <-] H]; done].
    + split; [intros [= <-]; done | intros [[= <-] _]; done].
  - split; [discriminate | intros [H _]; discriminate].
Qed.

(** X19. Whatever was selected or closed before, a click on a row of the
    table opens the modal of the log at this position of the display, and
    closing the modal leaves none on the page. *)
Theorem row_click_opens_modal (history : list Modal.action)
  (shown : list CallLog) (i : nat) (r : TableBody.row) :
  TableBody.tbody shown !! i = Some r ->
  exists log,
    shown !! i = Some log /\
    Modal.shown (history ++ [Modal.RowClick (TableBody.target r)])
    = Modal.CallDetailsModal (Some log) /\
    Modal.shown (history ++ [Modal.RowClick (TableBody.target r);
                             Modal.Close]) = None.
Proof.
  intros Hi. unfold TableBody.tbody in Hi.
  rewrite list_lookup_imap in Hi.
  destruct (shown !! i) as [log|]; [|discriminate].
  injection Hi as <-. exists log. split; [reflexivity|].
  unfold Modal.shown. rewrite !fold_left_app. done.
Qed.

Lemma row_click_opens_modal_witness :
  TableBody.tbody sample_logs !! 1%nat
  = Some (TableBody.renderRow 1 (sample_log "b" None None)) /\
  exists log,
    sample_logs !! 1%nat = Some log /\
    Modal.shown
      ([Modal.Close]
       ++ [Modal.RowClick
             (TableBody.target
                (TableBody.renderRow 1 (sample_log "b" None None)))])
    = Modal.CallDetailsModal (Some log) /\
    Modal.shown
      ([Modal.Close]
       ++ [Modal.RowClick
             (TableBody.target
                (TableBody.renderRow 1 (sample_log "b" None None)));
           Modal.Close]) = None.
Proof.
  assert (TableBody.tbody sample_logs !! 1%nat
          = Some (TableBody.renderRow 1 (sample_log "b" None None))) as H
    by reflexivity.
  split; [exact H|].
  apply (row_click_opens_modal [Modal.Close] sample_logs 1 _ H).
Defined.

End ModalFacts.

(** ** The unanswered calls *)

Section UnansweredFacts.

Lemma filter_split_length {A : Type} (p : A -> bool) (l : list A) :
  (List.length (List.filter p l)
   + List.length (List.filter (fun x => negb (p x)) l))%nat
  = List.length l.
Proof.
  induction l as [|x l IH]; [reflexivity|].
  cbn. destruct (p x); cbn; lia.
Qed.

(** X7. The unanswered calls are the logs whose disconnection reason is
    not exactly ["completed"], those without a reason included. *)
Theorem unanswered_counts_the_rest (callLogs : list CallLog) :
  unansweredCalls callLogs
  = Z.of_nat (List.length
                (List.filter
                   (fun log => bool_decide
                                 (disconnection_reason log
                                  <> Some "completed"))
                   callLogs)).
Proof.
  unfold unansweredCalls, totalCalls, answeredCalls.
  rewrite <- (filter_split_length is_completed callLogs).
  rewrite (filter_ext (fun log => negb (is_completed log))
             (fun log => bool_decide
                           (disconnection_reason log <> Some "completed"))).
  - lia.
  - intros log. rewrite is_completed_spec.
    destruct (decide (disconnection_reason log = Some "completed")) as [E|E].
    + rewrite bool_decide_eq_true_2, bool_decide_eq_false_2; tauto.
    + rewrite bool_decide_eq_false_2, bool_decide_eq_true_2; tauto.
Qed.

End UnansweredFacts.
